(** * Forward-mode automatic differentiation: [cnn/autodiff/jet.h]

    A shallow embedding of the two class templates of [jet.h],
    [ArrayWithOp<Dtype>] (the gradient buffer) and [Jet<Dtype>] (a value
    paired with its gradient), together with their operator and function
    overloads, and the properties of them that the specification states.

    Conventions of the embedding.
    - The template parameter [Dtype] is a type with the operations the
      templates use on it, the class [Scalar] (and [Exp], [Log], [Sqrt]
      for [<cmath>]); it is instantiated at [double] and at the reals.
    - A C++ [int] is a [Z]; the one narrowing conversion of the file,
      [static_cast<int>] in [ArrayWithOp::n], is written out.
    - A call either returns or faults; the faults are the failed glog
      [CHECK] (the process aborts), the exceptions [std::out_of_range] of
      [std::vector::at], the exception of the sized [std::vector]
      constructor given a size it cannot have, and undefined behaviour,
      which in this file is an unchecked [std::vector::operator[]] outside
      the buffer. *)

From Stdlib Require Import ZArith Lia Bool Reals Lra Floats.
From stdpp Require Import base decidable option list list_numbers strings.

Local Open Scope Z_scope.

(** ** Outcomes of a call *)

Inductive fault : Set :=
| CheckFailure        (* glog CHECK(cond) with cond false: LOG(FATAL), abort *)
| out_of_range        (* thrown by std::vector::at *)
| bad_vector_size     (* thrown by std::vector's sized constructor for a
                         size beyond max_size(): std::length_error or
                         std::bad_alloc, as the library has it *)
| UndefinedBehavior.  (* std::vector::operator[] outside [0, size()) *)

Inductive result (A : Type) : Type :=
| Ok (a : A)
| Fault (e : fault).
Arguments Ok {A} a.
Arguments Fault {A} e.

Definition bind {A B : Type} (m : result A) (k : A → result B) : result B :=
  match m with
  | Ok a => k a
  | Fault e => Fault e
  end.

Notation "'do' x <- m ; k" := (bind m (λ x, k))
  (at level 10, x name, m at level 100, k at level 200,
   format "'[v' 'do'  x  <-  m ;  '/' k ']'").

(** [CHECK(cond)] of glog. *)
Definition CHECK (cond : bool) : result unit :=
  if cond then Ok tt else Fault CheckFailure.

(** [for (int i = 0; i < bound; ++i) body], threading the state the body
    updates. *)
Fixpoint for_each {St : Type} (idx : list Z) (body : Z → St → result St)
    (s : St) : result St :=
  match idx with
  | [] => Ok s
  | i :: idx' => do s' <- body i s; for_each idx' body s'
  end.

Definition for_int {St : Type} (bound : Z) (body : Z → St → result St)
    (s : St) : result St :=
  for_each (seqZ 0 bound) body s.

(** ** The C++ [int] *)

Definition INT_MAX : Z := 2 ^ 31 - 1.
Definition INT_MIN : Z := - 2 ^ 31.

(** [static_cast<int>(z)] for an unsigned [z]: reduction modulo [2^32] into
    the range of [int]. *)
Definition static_cast_int (z : Z) : Z :=
  (z + 2 ^ 31) mod 2 ^ 32 - 2 ^ 31.

Definition is_int (z : Z) : Prop := INT_MIN ≤ z ≤ INT_MAX.

(** An index is in range for a buffer of [len] elements. *)
Definition in_range (i : Z) (len : nat) : Prop := 0 ≤ i < Z.of_nat len.

(** ** The scalar type [Dtype] *)

(** What the templates of [jet.h] require of [Dtype]: value
    initialisation [Dtype()], the conversions [Dtype(1)] (the default
    [derivative]) and [Dtype(2)], the arithmetic and comparison operators.
    Three laws are recorded, all of which hold of [float] and [double]:
    the product is commutative (the buffer operators multiply as
    [a[i] * s] whichever side the scalar was written on), and no value is
    below itself or below a value it equals. *)
Class Scalar (D : Type) : Type := {
  s_zero : D;
  s_one : D;
  s_two : D;
  s_add : D → D → D;
  s_sub : D → D → D;
  s_mul : D → D → D;
  s_div : D → D → D;
  s_neg : D → D;
  s_eq : D → D → bool;
  s_ne : D → D → bool;
  s_lt : D → D → bool;
  s_le : D → D → bool;
  s_gt : D → D → bool;
  s_ge : D → D → bool;
  s_mul_comm : ∀ a b : D, s_mul a b = s_mul b a;
  s_lt_irrefl : ∀ a : D, s_lt a a = false;
  s_lt_eq : ∀ a b : D, s_eq a b = true → s_lt a b = false
}.

(** [std::exp], [std::log] and [std::sqrt] of [<cmath>] at [Dtype], each
    brought in by its own [using] declaration. *)
Class Exp (D : Type) : Type := s_exp : D → D.
Class Log (D : Type) : Type := s_log : D → D.
Class Sqrt (D : Type) : Type := s_sqrt : D → D.


(** ** [ArrayWithOp<Dtype>] *)

Module Array.
Section ArrayWithOp.
Context {Dtype : Type} `{!Scalar Dtype}.

Record ArrayWithOp : Type := mkArray { v_ : list Dtype }.

(** [explicit ArrayWithOp(int n) : v_(n) {}].  The [int] converts to
    [size_type]; a negative one becomes larger than [max_size()] and the
    constructor of [std::vector] throws (which exception is the
    library's choice), otherwise the buffer holds [n] value-initialised
    elements. *)
Definition new (n : Z) : result ArrayWithOp :=
  if n <? 0 then Fault bad_vector_size
  else Ok (mkArray (replicate (Z.to_nat n) s_zero)).

(** [int n() const { return static_cast<int>(v_.size()); }] *)
Definition n (a : ArrayWithOp) : Z :=
  static_cast_int (Z.of_nat (length (v_ a))).

(** [Dtype operator[](int i) const { return v_[i]; }] *)
Definition get (a : ArrayWithOp) (i : Z) : result Dtype :=
  if 0 <=? i then
    match v_ a !! Z.to_nat i with
    | Some x => Ok x
    | None => Fault UndefinedBehavior
    end
  else Fault UndefinedBehavior.

(** [Dtype& operator[](int i) { return v_[i]; }], used as [c[i] = x]. *)
Definition put (a : ArrayWithOp) (i : Z) (x : Dtype) : result ArrayWithOp :=
  if 0 <=? i then
    match v_ a !! Z.to_nat i with
    | Some _ => Ok (mkArray (<[Z.to_nat i := x]> (v_ a)))
    | None => Fault UndefinedBehavior
    end
  else Fault UndefinedBehavior.

(** [bool has_same_shape(const ArrayWithOp& other) const] *)
Definition has_same_shape (a other : ArrayWithOp) : bool :=
  Nat.eqb (length (v_ a)) (length (v_ other)).

(** [Dtype at(int i) const { return v_.at(i); }] *)
Definition at_ (a : ArrayWithOp) (i : Z) : result Dtype :=
  if 0 <=? i then
    match v_ a !! Z.to_nat i with
    | Some x => Ok x
    | None => Fault out_of_range
    end
  else Fault out_of_range.

(** [Dtype& at(int i) { return v_.at(i); }], used as [a.at(i) = x]. *)
Definition at_put (a : ArrayWithOp) (i : Z) (x : Dtype) : result ArrayWithOp :=
  if 0 <=? i then
    match v_ a !! Z.to_nat i with
    | Some _ => Ok (mkArray (<[Z.to_nat i := x]> (v_ a)))
    | None => Fault out_of_range
    end
  else Fault out_of_range.

(** The operators below take their scalar as [double s]; for
    [Dtype = double] that is [Dtype] itself, and the embedding keeps the
    scalar at [Dtype]. *)

(** [operator+(const ArrayWithOp&, const ArrayWithOp&)] *)
Definition add (a b : ArrayWithOp) : result ArrayWithOp :=
  do _ <- CHECK (has_same_shape a b);
  do c <- new (n a);
  for_int (n a)
    (λ i c, do x <- get a i; do y <- get b i; put c i (s_add x y)) c.

(** [operator-(const ArrayWithOp&, const ArrayWithOp&)] *)
Definition sub (a b : ArrayWithOp) : result ArrayWithOp :=
  do _ <- CHECK (has_same_shape a b);
  do c <- new (n a);
  for_int (n a)
    (λ i c, do x <- get a i; do y <- get b i; put c i (s_sub x y)) c.

(** [operator-(const ArrayWithOp&)] *)
Definition neg (a : ArrayWithOp) : result ArrayWithOp :=
  do c <- new (n a);
  for_int (n a) (λ i c, do x <- get a i; put c i (s_neg x)) c.

(** [operator*(const ArrayWithOp&, double s)] *)
Definition mul_scalar (a : ArrayWithOp) (s : Dtype) : result ArrayWithOp :=
  do c <- new (n a);
  for_int (n a) (λ i c, do x <- get a i; put c i (s_mul x s)) c.

(** [operator*(double s, const ArrayWithOp&)]: the body is that of the
    overload above, [c[i] = a[i] * s]. *)
Definition scalar_mul (s : Dtype) (a : ArrayWithOp) : result ArrayWithOp :=
  do c <- new (n a);
  for_int (n a) (λ i c, do x <- get a i; put c i (s_mul x s)) c.

(** [operator/(const ArrayWithOp&, double s)] *)
Definition div_scalar (a : ArrayWithOp) (s : Dtype) : result ArrayWithOp :=
  do c <- new (n a);
  for_int (n a) (λ i c, do x <- get a i; put c i (s_div x s)) c.

(** The class invariant: [v_] is private and only ever built by
    [ArrayWithOp(int n)], so its size is that of an [int]. *)
Definition wf (a : ArrayWithOp) : Prop :=
  Z.of_nat (length (v_ a)) ≤ INT_MAX.

End ArrayWithOp.
Arguments ArrayWithOp Dtype : clear implicits.
End Array.

(** ** [Jet<Dtype>] *)

(** [struct Dim { explicit Dim(int num) : n(num) {} int n; };] *)
Record Dim : Set := mkDim { Dim_n : Z }.

Module Jet.
Section Jet.
Context {Dtype : Type} `{!Scalar Dtype, !Exp Dtype, !Log Dtype, !Sqrt Dtype}.

Local Abbreviation ArrayWithOp := (Array.ArrayWithOp Dtype).

Record Jet : Type := mkJet {
  val_ : Dtype;          (* value *)
  grad_ : ArrayWithOp    (* gradient *)
}.

(** Assignments to the two public fields. *)
Definition with_val (f : Jet) (v : Dtype) : Jet := mkJet v (grad_ f).
Definition with_grad (f : Jet) (g : ArrayWithOp) : Jet := mkJet (val_ f) g.

(** [explicit Jet(Dim dim) : val_(), grad_(dim.n) {}] *)
Definition new (dim : Dim) : result Jet :=
  do g <- Array.new (Dim_n dim);
  Ok (mkJet s_zero g).

(** [Jet(Dim dim, const Dtype& val) : val_(val), grad_(dim.n) {}] *)
Definition constant (dim : Dim) (val : Dtype) : result Jet :=
  do g <- Array.new (Dim_n dim);
  Ok (mkJet val g).

(** [Jet(Dim dim, const Dtype& val, int i, Dtype derivative = 1)] *)
Definition variable (dim : Dim) (val : Dtype) (i : Z) (derivative : Dtype)
  : result Jet :=
  do g <- Array.new (Dim_n dim);
  do g' <- Array.at_put g i derivative;
  Ok (mkJet val g').

(** The same with the default argument, [derivative = 1]. *)
Definition variable_default (dim : Dim) (val : Dtype) (i : Z) : result Jet :=
  variable dim val i s_one.

(** [Jet::set] and [Jet::operator=(const Dtype&)] are not embedded: both
    call [grad_.assign(grad_.size(), 0)], and [ArrayWithOp] declares
    neither [assign] nor [size], so neither member function can be
    instantiated. *)

(** The implicitly declared copy assignment, which the compound
    assignments call as [*this = ...]: member by member, [val_] and
    [grad_] of the operand replace those of [*this]. *)
Definition copy_assign (self other : Jet) : Jet :=
  with_grad (with_val self (val_ other)) (grad_ other).

(** [operator Dtype() const { return val_; }] *)
Definition to_Dtype (f : Jet) : Dtype := val_ f.

(** [bool has_same_shape(const Jet& other) const] *)
Definition has_same_shape (f other : Jet) : bool :=
  Array.has_same_shape (grad_ f) (grad_ other).

(** [Dim dim() const { return Dim(grad_.n()); }] *)
Definition dim (f : Jet) : Dim := mkDim (Array.n (grad_ f)).

(** [operator-(const Jet&)] *)
Definition neg (f : Jet) : result Jet :=
  do res <- new (dim f);
  let res := with_val res (s_neg (val_ f)) in
  do g <- Array.neg (grad_ f);
  Ok (with_grad res g).

(** *** Jet and scalar *)

(** [operator+(const Jet&, Dtype s)]: [Jet res(f); res.val_ += s;] *)
Definition add_scalar (f : Jet) (s : Dtype) : result Jet :=
  let res := f in
  Ok (with_val res (s_add (val_ res) s)).

(** [operator+(Dtype s, const Jet&)] *)
Definition scalar_add (s : Dtype) (f : Jet) : result Jet :=
  let res := f in
  Ok (with_val res (s_add (val_ res) s)).

(** [operator-(const Jet&, Dtype s)] *)
Definition sub_scalar (f : Jet) (s : Dtype) : result Jet :=
  let res := f in
  Ok (with_val res (s_sub (val_ res) s)).

(** [operator-(Dtype s, const Jet&)] *)
Definition scalar_sub (s : Dtype) (f : Jet) : result Jet :=
  do res <- new (dim f);
  let res := with_val res (s_sub s (val_ f)) in
  do g <- Array.neg (grad_ f);
  Ok (with_grad res g).

(** [operator*(const Jet&, Dtype s)] *)
Definition mul_scalar (f : Jet) (s : Dtype) : result Jet :=
  do res <- new (dim f);
  let res := with_val res (s_mul (val_ f) s) in
  do g <- Array.mul_scalar (grad_ f) s;
  Ok (with_grad res g).

(** [operator*(Dtype s, const Jet&)]: same body, [f.grad_ * s]. *)
Definition scalar_mul (s : Dtype) (f : Jet) : result Jet :=
  do res <- new (dim f);
  let res := with_val res (s_mul (val_ f) s) in
  do g <- Array.mul_scalar (grad_ f) s;
  Ok (with_grad res g).

(** [operator/(const Jet&, Dtype s)] *)
Definition div_scalar (f : Jet) (s : Dtype) : result Jet :=
  do res <- new (dim f);
  let res := with_val res (s_div (val_ f) s) in
  do g <- Array.div_scalar (grad_ f) s;
  Ok (with_grad res g).

(** [operator/(Dtype s, const Jet&)]:
    [res.grad_ = -s * f.grad_ / (f.val_ * f.val_);] *)
Definition scalar_div (s : Dtype) (f : Jet) : result Jet :=
  do res <- new (dim f);
  let res := with_val res (s_div s (val_ f)) in
  do t <- Array.scalar_mul (s_neg s) (grad_ f);
  do g <- Array.div_scalar t (s_mul (val_ f) (val_ f));
  Ok (with_grad res g).

(** *** Jet and jet *)

(** [operator+(const Jet&, const Jet&)] *)
Definition add (f g : Jet) : result Jet :=
  do res <- new (dim f);
  let res := with_val res (s_add (val_ f) (val_ g)) in
  do r <- Array.add (grad_ f) (grad_ g);
  Ok (with_grad res r).

(** [operator-(const Jet&, const Jet&)] *)
Definition sub (f g : Jet) : result Jet :=
  do res <- new (dim f);
  let res := with_val res (s_sub (val_ f) (val_ g)) in
  do r <- Array.sub (grad_ f) (grad_ g);
  Ok (with_grad res r).

(** [operator*(const Jet&, const Jet&)]:
    [res.grad_ = f.val_ * g.grad_ + g.val_ * f.grad_;]
    The two products are independent and are taken left to right. *)
Definition mul (f g : Jet) : result Jet :=
  do res <- new (dim f);
  let res := with_val res (s_mul (val_ f) (val_ g)) in
  do t1 <- Array.scalar_mul (val_ f) (grad_ g);
  do t2 <- Array.scalar_mul (val_ g) (grad_ f);
  do r <- Array.add t1 t2;
  Ok (with_grad res r).

(** [operator/(const Jet&, const Jet&)]:
    [res.grad_ = f.grad_ / g.val_ - (f.val_ * g.grad_) / (g.val_ * g.val_);] *)
Definition div (f g : Jet) : result Jet :=
  do res <- new (dim f);
  let res := with_val res (s_div (val_ f) (val_ g)) in
  do t1 <- Array.div_scalar (grad_ f) (val_ g);
  do t2 <- Array.scalar_mul (val_ f) (grad_ g);
  do t3 <- Array.div_scalar t2 (s_mul (val_ g) (val_ g));
  do r <- Array.sub t1 t3;
  Ok (with_grad res r).

(** *** Compound assignment: [return *this = *this + f;] and the like.
    The value given is the new [*this]. *)
Definition add_assign (self f : Jet) : result Jet := add self f.
Definition sub_assign (self f : Jet) : result Jet := sub self f.
Definition mul_assign (self f : Jet) : result Jet := mul self f.
Definition div_assign (self f : Jet) : result Jet := div self f.
Definition add_assign_scalar (self : Jet) (s : Dtype) : result Jet :=
  add_scalar self s.
Definition sub_assign_scalar (self : Jet) (s : Dtype) : result Jet :=
  sub_scalar self s.
Definition mul_assign_scalar (self : Jet) (s : Dtype) : result Jet :=
  mul_scalar self s.
Definition div_assign_scalar (self : Jet) (s : Dtype) : result Jet :=
  div_scalar self s.

(** *** Comparisons *)

(** [operator==(const Jet&, const Jet&)] *)
Definition eq (f g : Jet) : result bool :=
  do _ <- CHECK (has_same_shape f g);
  Ok (s_eq (val_ f) (val_ g)).

(** [operator!=(const Jet&, const Jet&)] *)
Definition ne (f g : Jet) : result bool :=
  do _ <- CHECK (has_same_shape f g);
  Ok (s_ne (val_ f) (val_ g)).

(** [operator<(const Jet&, const Jet&)] *)
Definition lt (f g : Jet) : result bool :=
  do _ <- CHECK (has_same_shape f g);
  Ok (s_lt (val_ f) (val_ g)).

(** [operator<=(const Jet&, const Jet&)] *)
Definition le (f g : Jet) : result bool :=
  do _ <- CHECK (has_same_shape f g);
  Ok (s_le (val_ f) (val_ g)).

(** [operator>(const Jet&, const Jet&)]: no [CHECK]. *)
Definition gt (f g : Jet) : result bool :=
  Ok (s_gt (val_ f) (val_ g)).

(** [operator>=(const Jet&, const Jet&)] *)
Definition ge (f g : Jet) : result bool :=
  do _ <- CHECK (has_same_shape f g);
  Ok (s_ge (val_ f) (val_ g)).

(** *** Math functions *)

(** [max(const Jet&, const Jet&)]: [return (f < g) ? g : f;] *)
Definition max (f g : Jet) : result Jet :=
  do b <- lt f g;
  Ok (if b then g else f).

(** [exp(const Jet&)] *)
Definition exp (f : Jet) : result Jet :=
  do res <- new (dim f);
  let s := s_exp (val_ f) in
  let res := with_val res s in
  do g <- Array.scalar_mul s (grad_ f);
  Ok (with_grad res g).

(** [log(const Jet&)] *)
Definition log (f : Jet) : result Jet :=
  do res <- new (dim f);
  let res := with_val res (s_log (val_ f)) in
  do g <- Array.div_scalar (grad_ f) (val_ f);
  Ok (with_grad res g).

(** [sqrt(const Jet&)]:
    [res.grad_ = f.grad_ / (Dtype(2) * res.val_);] *)
Definition sqrt (f : Jet) : result Jet :=
  do res <- new (dim f);
  let res := with_val res (s_sqrt (val_ f)) in
  do g <- Array.div_scalar (grad_ f) (s_mul s_two (val_ res));
  Ok (with_grad res g).

(** The gradient as the sequence of its components, and its length. *)
Definition gradient (f : Jet) : list Dtype := Array.v_ (grad_ f).
Definition dimension (f : Jet) : nat := length (gradient f).

Definition wf (f : Jet) : Prop := Array.wf (grad_ f).

(** A call made on [f] returns a dual number of the dimension of [f]. *)
Definition keeps_dimension (f : Jet) (r : result Jet) : Prop :=
  ∃ j, r = Ok j ∧ dimension j = dimension f.

(** A constructor given the dimension [k] returns a dual number whose
    gradient has [k] components, the class invariant holding of it. *)
Definition built_with (k : Z) (r : result Jet) : Prop :=
  ∃ j, r = Ok j ∧ Z.of_nat (dimension j) = k ∧ wf j.

End Jet.
Arguments Jet Dtype : clear implicits.

Section Output.
Context {Dtype : Type} `{!Show Dtype}.





End Output.
End Jet.

(** ** [Dtype] as the real numbers

    The reading of [double] under which the specification states its
    derivative rules: exact arithmetic, rounding aside. *)

Definition Rbool {P Q : Prop} (d : {P} + {Q}) : bool :=
  if d then true else false.

#[export, refine] Instance Scalar_R : Scalar R := {|
  s_zero := 0%R;
  s_one := 1%R;
  s_two := 2%R;
  s_add := Rplus;
  s_sub := Rminus;
  s_mul := Rmult;
  s_div := Rdiv;
  s_neg := Ropp;
  s_eq x y := Rbool (Req_dec_T x y);
  s_ne x y := negb (Rbool (Req_dec_T x y));
  s_lt x y := Rbool (Rlt_dec x y);
  s_le x y := Rbool (Rle_dec x y);
  s_gt x y := Rbool (Rgt_dec x y);
  s_ge x y := Rbool (Rge_dec x y);
  s_mul_comm := Rmult_comm
|}.
Proof.
  - intros a. destruct (Rlt_dec a a) as [H|H]; [exfalso; lra | reflexivity].
  - intros a b. destruct (Req_dec_T a b) as [->|H]; [intros _ | discriminate].
    destruct (Rlt_dec b b) as [H|H]; [exfalso; lra | reflexivity].
Defined.

#[export] Instance Exp_R : Exp R := Rtrigo_def.exp.
#[export] Instance Log_R : Log R := ln.
#[export] Instance Sqrt_R : Sqrt R := R_sqrt.sqrt.

(** ** [Dtype] as [double]

    The binary64 numbers of IEEE 754 with their correctly rounded
    operations, as the kernel's primitive floats.  [x != y], [x > y] and
    [x >= y] are [!(x == y)], [y < x] and [y <= x].  The primitive floats
    have a square root but neither exponential nor logarithm. *)

#[export, refine] Instance Scalar_double : Scalar float := {|
  s_zero := 0%float;
  s_one := 1%float;
  s_two := 2%float;
  s_add := PrimFloat.add;
  s_sub := PrimFloat.sub;
  s_mul := PrimFloat.mul;
  s_div := PrimFloat.div;
  s_neg := PrimFloat.opp;
  s_eq := PrimFloat.eqb;
  s_ne x y := negb (PrimFloat.eqb x y);
  s_lt := PrimFloat.ltb;
  s_le := PrimFloat.leb;
  s_gt x y := PrimFloat.ltb y x;
  s_ge x y := PrimFloat.leb y x
|}.
Proof.
  - (* the product of the specification of binary64 is symmetric *)
    intros a b. apply Prim2SF_inj. rewrite !FloatAxioms.mul_spec.
    unfold SF64mul.
    destruct (Prim2SF a) as [sx|sx| |sx mx ex],
             (Prim2SF b) as [sy|sy| |sy my ey]; simpl;
      try reflexivity; try (f_equal; apply xorb_comm).
    by rewrite (xorb_comm sx sy), (Pos.mul_comm mx my), (Z.add_comm ex ey).
  - (* a number compares [Eq] with itself, a NaN with nothing *)
    intros a. rewrite FloatAxioms.ltb_spec. unfold SFltb.
    destruct (Prim2SF a) as [[]|[]| |[] m e]; simpl; try reflexivity;
      by rewrite Z.compare_refl, Pos.compare_cont_refl.
  - intros a b. rewrite FloatAxioms.eqb_spec, FloatAxioms.ltb_spec.
    unfold SFeqb, SFltb.
    destruct (SFcompare (Prim2SF a) (Prim2SF b)) as [[]|]; congruence.
Defined.

#[export] Instance Sqrt_double : Sqrt float := PrimFloat.sqrt.

(** ** Concrete dual numbers

    The dual numbers of the specification's scenarios, over [double]:
    [x = variable(dim = 2, value = 3, index = 0)],
    [y = variable(dim = 2, value = 4, index = 1)], the operands
    [f = (3, [1, 0])] and [g = (5, [0, 1])] of its example of [max], and a
    dual number [w] that tracks one variable only; over the reals, two
    dual numbers [u] and [v] of one variable. *)

Module Scenario.
Import Jet.
Local Open Scope float_scope.

Definition x : Jet float := mkJet 3 (Array.mkArray [1; 0]).
Definition y : Jet float := mkJet 4 (Array.mkArray [0; 1]).
Definition f : Jet float := mkJet 3 (Array.mkArray [1; 0]).
Definition g : Jet float := mkJet 5 (Array.mkArray [0; 1]).
Definition w : Jet float := mkJet 4 (Array.mkArray [1]).

(** A tie of values with different gradients. *)
Definition f' : Jet float := mkJet 3 (Array.mkArray [0; 7]).

(** A buffer of two elements. *)
Definition buf : Array.ArrayWithOp float := Array.mkArray [1; 2].

(** [u = variable(dim = 1, value = 4, index = 0)] over the reals, where
    [exp] and [log] are defined, and a second dual number beside it. *)
Definition u : Jet R := mkJet 4%R (Array.mkArray [1%R]).
Definition v : Jet R := mkJet 2%R (Array.mkArray [3%R]).

(** [x] and [y] over the reals. *)
Definition xr : Jet R := mkJet 3%R (Array.mkArray [1%R; 0%R]).
Definition yr : Jet R := mkJet 4%R (Array.mkArray [0%R; 1%R]).

End Scenario.

(** * Properties *)

(** ** The C++ [int] *)

Lemma static_cast_int_id (z : Z) : is_int z → static_cast_int z = z.
Proof.
  unfold is_int, static_cast_int, INT_MIN, INT_MAX. intros Hz.
  rewrite Z.mod_small; lia.
Qed.

(** ** [ArrayWithOp]: the loops compute the elementwise operations *)

Section ArrayFacts.
Context {Dtype : Type} `{!Scalar Dtype}.
Import Array.

Implicit Types (a b c : ArrayWithOp Dtype) (l : list Dtype) (i : Z).

Lemma n_wf a : wf a → n a = Z.of_nat (length (v_ a)).
Proof.
  unfold wf, n. intros Ha. apply static_cast_int_id.
  unfold is_int, INT_MIN, INT_MAX in *. lia.
Qed.

Lemma new_Ok (k : Z) :
  0 ≤ k → new k = Ok (mkArray (replicate (Z.to_nat k) s_zero)).
Proof. intros Hk. unfold new. by rewrite (proj2 (Z.ltb_ge k 0)). Qed.

Lemma new_negative (k : Z) :
  k < 0 → new (Dtype:=Dtype) k = Fault bad_vector_size.
Proof. intros Hk. unfold new. by rewrite (proj2 (Z.ltb_lt k 0)). Qed.

Lemma get_lookup a (k : nat) x :
  v_ a !! k = Some x → get a (Z.of_nat k) = Ok x.
Proof.
  intros Hk. unfold get. rewrite (proj2 (Z.leb_le 0 _)) by lia.
  by rewrite Nat2Z.id, Hk.
Qed.

Lemma put_lookup c (k : nat) x :
  (k < length (v_ c))%nat →
  put c (Z.of_nat k) x = Ok (mkArray (<[k := x]> (v_ c))).
Proof.
  intros Hk. unfold put. rewrite (proj2 (Z.leb_le 0 _)) by lia.
  rewrite Nat2Z.id. by destruct (lookup_lt_is_Some_2 _ _ Hk) as [y ->].
Qed.

(** A loop whose [k]-th round stores the [k]-th element of [l] into the
    buffer leaves the buffer equal to [l]. *)
Lemma for_each_fill
    (body : Z → ArrayWithOp Dtype → result (ArrayWithOp Dtype)) l :
  (∀ (k : nat) x c, l !! k = Some x → length (v_ c) = length l →
     body (Z.of_nat k) c = Ok (mkArray (<[k := x]> (v_ c)))) →
  ∀ (m k : nat) c,
    (k + m = length l)%nat → length (v_ c) = length l →
    take k (v_ c) = take k l →
    for_each (seqZ (Z.of_nat k) (Z.of_nat m)) body c = Ok (mkArray l).
Proof.
  intros Hbody m. induction m as [|m IH]; intros k c Hk Hlen Htake.
  - rewrite seqZ_nil by lia. simpl. destruct c as [vc]. simpl in *.
    f_equal. f_equal.
    rewrite <- (take_ge vc k), <- (take_ge l k) by lia. done.
  - rewrite seqZ_cons by lia. simpl.
    destruct (lookup_lt_is_Some_2 l k) as [x Hx]; [lia|].
    rewrite (Hbody k x c Hx Hlen). simpl.
    replace (Z.succ (Z.of_nat k)) with (Z.of_nat (S k)) by lia.
    replace (Z.pred (Z.of_nat (S m))) with (Z.of_nat m) by lia.
    apply IH; simpl.
    + lia.
    + by rewrite length_insert.
    + rewrite (take_S_r l k x Hx).
      rewrite (take_S_r _ k x).
      * rewrite take_insert_ge by lia. by rewrite Htake.
      * apply list_lookup_insert_eq. lia.
Qed.

Lemma for_int_fill
    (body : Z → ArrayWithOp Dtype → result (ArrayWithOp Dtype)) l c :
  (∀ (k : nat) x c, l !! k = Some x → length (v_ c) = length l →
     body (Z.of_nat k) c = Ok (mkArray (<[k := x]> (v_ c)))) →
  length (v_ c) = length l →
  for_int (Z.of_nat (length l)) body c = Ok (mkArray l).
Proof.
  intros Hbody Hlen. unfold for_int.
  apply (for_each_fill body l Hbody (length l) 0%nat c); [lia | done | done].
Qed.

Lemma map_loop (h : Dtype → Dtype) a :
  wf a →
  (do c <- new (n a);
   for_int (n a) (λ i c, do x <- get a i; put c i (h x)) c)
  = Ok (mkArray (h <$> v_ a)).
Proof.
  intros Ha. rewrite (n_wf a Ha), new_Ok by lia. simpl.
  replace (length (v_ a)) with (length (h <$> v_ a))
    by apply length_fmap.
  apply for_int_fill.
  - intros k y c Hy Hc. rewrite list_lookup_fmap in Hy.
    destruct (v_ a !! k) as [x|] eqn:Hx; simplify_eq/=.
    rewrite (get_lookup a k x Hx). simpl.
    apply put_lookup. apply lookup_lt_Some in Hx.
    rewrite length_fmap in Hc. lia.
  - simpl. by rewrite length_replicate, Nat2Z.id.
Qed.

Lemma zip_loop (h : Dtype → Dtype → Dtype) a b :
  wf a → length (v_ a) = length (v_ b) →
  (do c <- new (n a);
   for_int (n a)
     (λ i c, do x <- get a i; do y <- get b i; put c i (h x y)) c)
  = Ok (mkArray (zip_with h (v_ a) (v_ b))).
Proof.
  intros Ha Hab. rewrite (n_wf a Ha), new_Ok by lia. simpl.
  assert (Hzip : length (zip_with h (v_ a) (v_ b)) = length (v_ a))
    by (rewrite length_zip_with; lia).
  rewrite <- Hzip at 1.
  apply for_int_fill.
  - intros k z c Hz Hc. apply lookup_zip_with_Some in Hz.
    destruct Hz as (x & y & -> & Hx & Hy).
    rewrite (get_lookup a k x Hx), (get_lookup b k y Hy). simpl.
    apply put_lookup. apply lookup_lt_Some in Hx. lia.
  - simpl. rewrite length_replicate, Nat2Z.id. lia.
Qed.

Lemma has_same_shape_true a b :
  has_same_shape a b = true ↔ length (v_ a) = length (v_ b).
Proof. unfold has_same_shape. apply Nat.eqb_eq. Qed.

Lemma has_same_shape_false a b :
  has_same_shape a b = false ↔ length (v_ a) ≠ length (v_ b).
Proof. unfold has_same_shape. apply Nat.eqb_neq. Qed.

(** What each operator computes. *)

Lemma array_add_spec a b :
  wf a → length (v_ a) = length (v_ b) →
  add a b = Ok (mkArray (zip_with s_add (v_ a) (v_ b))).
Proof.
  intros Ha Hab. unfold add.
  rewrite (proj2 (has_same_shape_true a b) Hab). simpl.
  by apply zip_loop.
Qed.

Lemma array_sub_spec a b :
  wf a → length (v_ a) = length (v_ b) →
  sub a b = Ok (mkArray (zip_with s_sub (v_ a) (v_ b))).
Proof.
  intros Ha Hab. unfold sub.
  rewrite (proj2 (has_same_shape_true a b) Hab). simpl.
  by apply zip_loop.
Qed.

Lemma array_add_mismatch a b :
  length (v_ a) ≠ length (v_ b) → add a b = Fault CheckFailure.
Proof.
  intros Hab. unfold add.
  by rewrite (proj2 (has_same_shape_false a b) Hab).
Qed.

Lemma array_sub_mismatch a b :
  length (v_ a) ≠ length (v_ b) → sub a b = Fault CheckFailure.
Proof.
  intros Hab. unfold sub.
  by rewrite (proj2 (has_same_shape_false a b) Hab).
Qed.

Lemma array_neg_spec a : wf a → neg a = Ok (mkArray (s_neg <$> v_ a)).
Proof. intros Ha. unfold neg. by apply map_loop. Qed.

Lemma array_mul_scalar_spec a (s : Dtype) :
  wf a → mul_scalar a s = Ok (mkArray ((λ x, s_mul x s) <$> v_ a)).
Proof. intros Ha. unfold mul_scalar. by apply (map_loop (λ x, s_mul x s)). Qed.

Lemma array_scalar_mul_spec (s : Dtype) a :
  wf a → scalar_mul s a = Ok (mkArray ((λ x, s_mul x s) <$> v_ a)).
Proof. intros Ha. unfold scalar_mul. by apply (map_loop (λ x, s_mul x s)). Qed.

Lemma array_div_scalar_spec a (s : Dtype) :
  wf a → div_scalar a s = Ok (mkArray ((λ x, s_div x s) <$> v_ a)).
Proof. intros Ha. unfold div_scalar. by apply (map_loop (λ x, s_div x s)). Qed.

End ArrayFacts.

(** ** [Jet]: what each operator returns *)

Section JetFacts.
Context {Dtype : Type} `{!Scalar Dtype, !Exp Dtype, !Log Dtype, !Sqrt Dtype}.
Import Jet.

Local Abbreviation ArrayWithOp := (Array.ArrayWithOp Dtype).
Local Abbreviation mkArray := (@Array.mkArray Dtype).
Implicit Types (f g : Jet Dtype) (s x y : Dtype) (i : Z).

Lemma new_dim f :
  wf f →
  new (dim f)
  = Ok (mkJet s_zero (mkArray (replicate (dimension f) s_zero))).
Proof.
  intros Hf. unfold new, dim. simpl. rewrite (n_wf _ Hf).
  rewrite new_Ok by lia. simpl. by rewrite Nat2Z.id.
Qed.

Lemma dim_dimension f : wf f → Dim_n (dim f) = Z.of_nat (dimension f).
Proof. intros Hf. unfold dim. simpl. by rewrite (n_wf _ Hf). Qed.

Lemma has_same_shape_dimension f g :
  has_same_shape f g = true ↔ dimension f = dimension g.
Proof. apply has_same_shape_true. Qed.

Lemma has_same_shape_mismatch f g :
  has_same_shape f g = false ↔ dimension f ≠ dimension g.
Proof. apply has_same_shape_false. Qed.

(** Unfold an operator whose result object is built by [Jet res(f.dim())]
    and rewrite with the buffer operators' specifications. *)
Ltac jet_op Hf :=
  rewrite (new_dim _ Hf); cbn [bind with_val with_grad val_ grad_];
  repeat first
    [ rewrite (array_neg_spec _ Hf)
    | rewrite (array_mul_scalar_spec _ _ Hf)
    | rewrite (array_scalar_mul_spec _ _ Hf)
    | rewrite (array_div_scalar_spec _ _ Hf) ];
  cbn [bind with_val with_grad val_ grad_ Array.v_].

Lemma neg_eq f :
  wf f →
  neg f = Ok (mkJet (s_neg (val_ f)) (mkArray (s_neg <$> gradient f))).
Proof. intros Hf. unfold neg. jet_op Hf. done. Qed.

Lemma scalar_sub_eq s f :
  wf f →
  scalar_sub s f
  = Ok (mkJet (s_sub s (val_ f)) (mkArray (s_neg <$> gradient f))).
Proof. intros Hf. unfold scalar_sub. jet_op Hf. done. Qed.

Lemma mul_scalar_eq f s :
  wf f →
  mul_scalar f s
  = Ok (mkJet (s_mul (val_ f) s)
          (mkArray ((λ gx, s_mul gx s) <$> gradient f))).
Proof. intros Hf. unfold mul_scalar. jet_op Hf. done. Qed.

Lemma scalar_mul_eq s f :
  wf f →
  scalar_mul s f
  = Ok (mkJet (s_mul (val_ f) s)
          (mkArray ((λ gx, s_mul gx s) <$> gradient f))).
Proof. intros Hf. unfold scalar_mul. jet_op Hf. done. Qed.

Lemma div_scalar_eq f s :
  wf f →
  div_scalar f s
  = Ok (mkJet (s_div (val_ f) s)
          (mkArray ((λ gx, s_div gx s) <$> gradient f))).
Proof. intros Hf. unfold div_scalar. jet_op Hf. done. Qed.

Lemma wf_fmap (h : Dtype → Dtype) f :
  wf f → Array.wf (mkArray (h <$> gradient f)).
Proof. unfold wf, Array.wf. simpl. by rewrite length_fmap. Qed.

Lemma scalar_div_eq s f :
  wf f →
  scalar_div s f
  = Ok (mkJet (s_div s (val_ f))
          (mkArray ((λ gx, s_div (s_mul gx (s_neg s))
                             (s_mul (val_ f) (val_ f))) <$> gradient f))).
Proof.
  intros Hf. unfold scalar_div. jet_op Hf.
  rewrite array_div_scalar_spec by (by apply wf_fmap). simpl.
  by rewrite <- list_fmap_compose.
Qed.

Lemma add_eq f g :
  wf f → dimension f = dimension g →
  add f g
  = Ok (mkJet (s_add (val_ f) (val_ g))
          (mkArray (zip_with s_add (gradient f) (gradient g)))).
Proof.
  intros Hf Hfg. unfold add. jet_op Hf. by rewrite array_add_spec.
Qed.

Lemma sub_eq f g :
  wf f → dimension f = dimension g →
  sub f g
  = Ok (mkJet (s_sub (val_ f) (val_ g))
          (mkArray (zip_with s_sub (gradient f) (gradient g)))).
Proof.
  intros Hf Hfg. unfold sub. jet_op Hf. by rewrite array_sub_spec.
Qed.

Lemma wf_same_dimension f g : wf f → dimension f = dimension g → wf g.
Proof. unfold wf, Array.wf, dimension, gradient. by intros Hf <-. Qed.

(** The gradient of the product as the code computes it: each scalar
    multiplies from the right. *)
Lemma mul_eq f g :
  wf f → dimension f = dimension g →
  mul f g
  = Ok (mkJet (s_mul (val_ f) (val_ g))
          (mkArray (zip_with
                      (λ gx gy, s_add (s_mul gy (val_ f)) (s_mul gx (val_ g)))
                      (gradient f) (gradient g)))).
Proof.
  intros Hf Hfg. pose proof (wf_same_dimension f g Hf Hfg) as Hg.
  unfold mul. jet_op Hf. rewrite (array_scalar_mul_spec _ _ Hg). simpl.
  rewrite array_add_spec; simpl.
  - rewrite zip_with_fmap_l, zip_with_fmap_r.
    by rewrite <- zip_with_flip.
  - by apply (wf_fmap _ g).
  - rewrite !length_fmap. symmetry. exact Hfg.
Qed.

Lemma div_eq f g :
  wf f → dimension f = dimension g →
  div f g
  = Ok (mkJet (s_div (val_ f) (val_ g))
          (mkArray (zip_with
                      (λ gx gy,
                         s_sub (s_div gx (val_ g))
                               (s_div (s_mul gy (val_ f))
                                      (s_mul (val_ g) (val_ g))))
                      (gradient f) (gradient g)))).
Proof.
  intros Hf Hfg. pose proof (wf_same_dimension f g Hf Hfg) as Hg.
  unfold div. jet_op Hf. rewrite (array_scalar_mul_spec _ _ Hg). simpl.
  rewrite array_div_scalar_spec by (by apply (wf_fmap _ g)). simpl.
  rewrite array_sub_spec; simpl.
  - rewrite <- list_fmap_compose.
    by rewrite zip_with_fmap_l, zip_with_fmap_r.
  - by apply (wf_fmap _ f).
  - rewrite !length_fmap. exact Hfg.
Qed.

Lemma exp_eq f :
  wf f →
  exp f
  = Ok (mkJet (s_exp (val_ f))
          (mkArray ((λ gx, s_mul gx (s_exp (val_ f))) <$> gradient f))).
Proof. intros Hf. unfold exp. jet_op Hf. done. Qed.

Lemma log_eq f :
  wf f →
  log f
  = Ok (mkJet (s_log (val_ f))
          (mkArray ((λ gx, s_div gx (val_ f)) <$> gradient f))).
Proof. intros Hf. unfold log. jet_op Hf. done. Qed.

Lemma sqrt_eq f :
  wf f →
  sqrt f
  = Ok (mkJet (s_sqrt (val_ f))
          (mkArray ((λ gx, s_div gx (s_mul s_two (s_sqrt (val_ f))))
                      <$> gradient f))).
Proof. intros Hf. unfold sqrt. jet_op Hf. done. Qed.

End JetFacts.

(** ** The derivative rules *)

Section Rules.
Context {Dtype : Type} `{!Scalar Dtype, !Exp Dtype, !Log Dtype, !Sqrt Dtype}.
Import Jet.

Implicit Types (f g r : Jet Dtype) (x y gx gy : Dtype) (i : nat).

(** C1.  Product rule.  For dual numbers [f = (x, gx)] and [g = (y, gy)]
    of equal dimension, [f * g] returns the dual number of that dimension
    whose value is [x * y] and whose gradient is, at every component,
    [x * gy + y * gx]. *)
Theorem mul_product_rule f g :
  wf f → dimension f = dimension g →
  ∃ r, mul f g = Ok r
       ∧ val_ r = s_mul (val_ f) (val_ g)
       ∧ dimension r = dimension f
       ∧ ∀ i gx gy,
           gradient f !! i = Some gx → gradient g !! i = Some gy →
           gradient r !! i
           = Some (s_add (s_mul (val_ f) gy) (s_mul (val_ g) gx)).
Proof.
  intros Hf Hfg. eexists. split; [by apply mul_eq|]. simpl.
  split; [done|]. unfold dimension, gradient in *. simpl. split.
  - rewrite length_zip_with. lia.
  - intros i gx gy Hgx Hgy. rewrite lookup_zip_with, Hgx, Hgy. simpl.
    by rewrite (s_mul_comm gy), (s_mul_comm gx).
Qed.

(** C2.  Quotient rule.  For dual numbers [f = (x, gx)] and [g = (y, gy)]
    of equal dimension, [f / g] returns the dual number of that dimension
    whose value is [x / y] and whose gradient is, at every component,
    [gx / y - (x * gy) / (y * y)].  The code does not test [y]; the
    equation holds of whatever the scalar division gives. *)
Theorem div_quotient_rule f g :
  wf f → dimension f = dimension g →
  ∃ r, div f g = Ok r
       ∧ val_ r = s_div (val_ f) (val_ g)
       ∧ dimension r = dimension f
       ∧ ∀ i gx gy,
           gradient f !! i = Some gx → gradient g !! i = Some gy →
           gradient r !! i
           = Some (s_sub (s_div gx (val_ g))
                         (s_div (s_mul (val_ f) gy)
                                (s_mul (val_ g) (val_ g)))).
Proof.
  intros Hf Hfg. eexists. split; [by apply div_eq|]. simpl.
  split; [done|]. unfold dimension, gradient in *. simpl. split.
  - rewrite length_zip_with. lia.
  - intros i gx gy Hgx Hgy. rewrite lookup_zip_with, Hgx, Hgy. simpl.
    by rewrite (s_mul_comm gy).
Qed.

(** C3.  Chain rule for the elementary functions.  For a dual number
    [f = (x, gx)]: [exp f] has value [exp x] and gradient [exp x * gx];
    [log f] has value [log x] and gradient [gx / x]; [sqrt f] has value
    [sqrt x] and gradient [gx / (2 * sqrt x)], each at every component
    and with the dimension of [f].  No domain test is made. *)
Theorem elementary_chain_rule f :
  wf f →
  (∃ r, exp f = Ok r
        ∧ val_ r = s_exp (val_ f)
        ∧ dimension r = dimension f
        ∧ ∀ i gx, gradient f !! i = Some gx →
            gradient r !! i = Some (s_mul (s_exp (val_ f)) gx))
  ∧ (∃ r, log f = Ok r
        ∧ val_ r = s_log (val_ f)
        ∧ dimension r = dimension f
        ∧ ∀ i gx, gradient f !! i = Some gx →
            gradient r !! i = Some (s_div gx (val_ f)))
  ∧ (∃ r, sqrt f = Ok r
        ∧ val_ r = s_sqrt (val_ f)
        ∧ dimension r = dimension f
        ∧ ∀ i gx, gradient f !! i = Some gx →
            gradient r !! i
            = Some (s_div gx (s_mul s_two (s_sqrt (val_ f))))).
Proof.
  intros Hf. split; [|split].
  - eexists. split; [by apply exp_eq|]. simpl. split; [done|].
    unfold dimension, gradient. simpl. split; [apply length_fmap|].
    intros i gx Hgx. rewrite list_lookup_fmap, Hgx. simpl.
    by rewrite s_mul_comm.
  - eexists. split; [by apply log_eq|]. simpl. split; [done|].
    unfold dimension, gradient. simpl. split; [apply length_fmap|].
    intros i gx Hgx. by rewrite list_lookup_fmap, Hgx.
  - eexists. split; [by apply sqrt_eq|]. simpl. split; [done|].
    unfold dimension, gradient. simpl. split; [apply length_fmap|].
    intros i gx Hgx. by rewrite list_lookup_fmap, Hgx.
Qed.

End Rules.

(** ** The shape check *)

Section Shape.
Context {Dtype : Type} `{!Scalar Dtype}.
Import Jet.

Implicit Types (f g r : Jet Dtype).

Lemma add_mismatch f g :
  wf f → dimension f ≠ dimension g → add f g = Fault CheckFailure.
Proof.
  intros Hf Hfg. unfold add. rewrite (new_dim f Hf). simpl.
  by rewrite array_add_mismatch.
Qed.

Lemma sub_mismatch f g :
  wf f → dimension f ≠ dimension g → sub f g = Fault CheckFailure.
Proof.
  intros Hf Hfg. unfold sub. rewrite (new_dim f Hf). simpl.
  by rewrite array_sub_mismatch.
Qed.

Lemma mul_mismatch f g :
  wf f → wf g → dimension f ≠ dimension g →
  mul f g = Fault CheckFailure.
Proof.
  intros Hf Hg Hfg. unfold mul. rewrite (new_dim f Hf). simpl.
  rewrite (array_scalar_mul_spec _ _ Hg), (array_scalar_mul_spec _ _ Hf). simpl.
  rewrite array_add_mismatch; [done|]. simpl. rewrite !length_fmap.
  intros Heq. by apply Hfg.
Qed.

Lemma div_mismatch f g :
  wf f → wf g → dimension f ≠ dimension g →
  div f g = Fault CheckFailure.
Proof.
  intros Hf Hg Hfg. unfold div. rewrite (new_dim f Hf). simpl.
  rewrite (array_div_scalar_spec _ _ Hf), (array_scalar_mul_spec _ _ Hg). simpl.
  rewrite array_div_scalar_spec by (by apply (wf_fmap _ g)). simpl.
  rewrite array_sub_mismatch; [done|]. simpl. by rewrite !length_fmap.
Qed.

Lemma lt_mismatch f g :
  dimension f ≠ dimension g → lt f g = Fault CheckFailure.
Proof.
  intros Hfg. unfold lt.
  by rewrite (proj2 (has_same_shape_mismatch f g) Hfg).
Qed.

Lemma lt_eq f g :
  dimension f = dimension g → lt f g = Ok (s_lt (val_ f) (val_ g)).
Proof.
  intros Hfg. unfold lt.
  by rewrite (proj2 (has_same_shape_dimension f g) Hfg).
Qed.

(** C4.  Of two dual numbers whose gradients differ in length, each of
    [+], [-], [*] and [/] ends in the failed [CHECK], so none returns a
    dual number, truncated or padded; of two whose gradients have the
    same length, each returns a dual number. *)
Theorem binary_operators_check_shape f g :
  wf f → wf g →
  (dimension f ≠ dimension g →
     add f g = Fault CheckFailure ∧ sub f g = Fault CheckFailure
     ∧ mul f g = Fault CheckFailure ∧ div f g = Fault CheckFailure)
  ∧ (dimension f = dimension g →
       (∃ r, add f g = Ok r) ∧ (∃ r, sub f g = Ok r)
       ∧ (∃ r, mul f g = Ok r) ∧ (∃ r, div f g = Ok r)).
Proof.
  intros Hf Hg. split; intros Hfg.
  - auto using add_mismatch, sub_mismatch, mul_mismatch, div_mismatch.
  - repeat split; eexists.
    + by apply add_eq.
    + by apply sub_eq.
    + by apply mul_eq.
    + by apply div_eq.
Qed.

(** C6.  [==], [!=], [<], [<=] and [>=] end in the failed [CHECK] on two
    dual numbers of different dimension and compare the values on two of
    the same dimension; [>] makes no such test and compares the values
    of any two dual numbers. *)
Theorem comparisons_check_shape_but_gt f g :
  (dimension f ≠ dimension g →
     eq f g = Fault CheckFailure ∧ ne f g = Fault CheckFailure
     ∧ lt f g = Fault CheckFailure ∧ le f g = Fault CheckFailure
     ∧ ge f g = Fault CheckFailure)
  ∧ (dimension f = dimension g →
       eq f g = Ok (s_eq (val_ f) (val_ g))
       ∧ ne f g = Ok (s_ne (val_ f) (val_ g))
       ∧ lt f g = Ok (s_lt (val_ f) (val_ g))
       ∧ le f g = Ok (s_le (val_ f) (val_ g))
       ∧ ge f g = Ok (s_ge (val_ f) (val_ g)))
  ∧ gt f g = Ok (s_gt (val_ f) (val_ g)).
Proof.
  split; [|split]; [intros Hfg..|reflexivity].
  - unfold eq, ne, lt, le, ge.
    by rewrite (proj2 (has_same_shape_mismatch f g) Hfg).
  - unfold eq, ne, lt, le, ge.
    by rewrite (proj2 (has_same_shape_dimension f g) Hfg).
Qed.

(** C8.  For dual numbers [f] and [g] of equal dimension, [max f g] is
    [g], value and gradient, when the value of [f] is below that of [g],
    and [f] otherwise; where the two values are the same, or compare
    equal, it is [f]. *)
Theorem max_selects_operand f g :
  dimension f = dimension g →
  (s_lt (val_ f) (val_ g) = true → max f g = Ok g)
  ∧ (s_lt (val_ f) (val_ g) = false → max f g = Ok f)
  ∧ (val_ f = val_ g → max f g = Ok f)
  ∧ (s_eq (val_ f) (val_ g) = true → max f g = Ok f).
Proof.
  intros Hfg. unfold max. rewrite (lt_eq f g Hfg). simpl.
  repeat split.
  - by intros ->.
  - by intros ->.
  - intros ->. by rewrite s_lt_irrefl.
  - intros Heq. by rewrite (s_lt_eq _ _ Heq).
Qed.

(** C10.  [max] of two dual numbers of different dimension ends in the
    failed [CHECK] of the comparison [f < g] it makes. *)
Theorem max_checks_shape f g :
  dimension f ≠ dimension g → max f g = Fault CheckFailure.
Proof. intros Hfg. unfold max. by rewrite (lt_mismatch f g Hfg). Qed.

End Shape.

(** ** Indexed access and construction *)

Section Indexing.
Context {Dtype : Type} `{!Scalar Dtype}.
Import Jet.

Local Abbreviation ArrayWithOp := (Array.ArrayWithOp Dtype).
Local Abbreviation mkArray := (@Array.mkArray Dtype).
Implicit Types (a : ArrayWithOp) (f g self : Jet Dtype) (i : Z) (x : Dtype).

Lemma in_range_lookup a i :
  in_range i (length (Array.v_ a)) →
  ∃ y, Array.v_ a !! Z.to_nat i = Some y ∧ (0 <=? i) = true.
Proof.
  intros [H0 Hi]. destruct (lookup_lt_is_Some_2 (Array.v_ a) (Z.to_nat i))
    as [y Hy]; [lia|].
  exists y. split; [done|]. by apply Z.leb_le.
Qed.

Lemma out_of_range_lookup a i :
  ¬ in_range i (length (Array.v_ a)) →
  (0 <=? i) = false ∨ ((0 <=? i) = true ∧ Array.v_ a !! Z.to_nat i = None).
Proof.
  unfold in_range. intros Hi. destruct (Z.leb_spec 0 i) as [H0|H0].
  - right. split; [done|]. apply lookup_ge_None. lia.
  - by left.
Qed.

Lemma at_put_in_range a i x :
  in_range i (length (Array.v_ a)) →
  Array.at_put a i x = Ok (mkArray (<[Z.to_nat i := x]> (Array.v_ a))).
Proof.
  intros Hi. destruct (in_range_lookup a i Hi) as (y & Hy & H0).
  unfold Array.at_put. by rewrite H0, Hy.
Qed.

Lemma at_put_out_of_range a i x :
  ¬ in_range i (length (Array.v_ a)) →
  Array.at_put a i x = Fault out_of_range.
Proof.
  intros Hi. unfold Array.at_put.
  destruct (out_of_range_lookup a i Hi) as [->|[-> ->]]; done.
Qed.

Lemma variable_eq (k : Z) val i x :
  0 ≤ k → in_range i (Z.to_nat k) →
  variable (mkDim k) val i x
  = Ok (mkJet val
          (mkArray (<[Z.to_nat i := x]> (replicate (Z.to_nat k) s_zero)))).
Proof.
  intros Hk Hi. unfold variable. simpl. rewrite new_Ok by done. simpl.
  rewrite at_put_in_range; [done|]. simpl. by rewrite length_replicate.
Qed.

(** C7, as the code has it.  Access through [at] is bounds-checked: an
    index outside the buffer, negative or too large, makes the read and
    the write throw [std::out_of_range], and so does the constructor of a
    variable of a non-negative dimension, which stores the derivative
    through [at]; an index inside reads or writes that very position.
    Access through [operator[]] agrees with [at] inside the buffer and is
    not checked. *)
Theorem at_is_bounds_checked a (k : Z) val i x :
  (¬ in_range i (length (Array.v_ a)) →
     Array.at_ a i = Fault out_of_range
     ∧ Array.at_put a i x = Fault out_of_range)
  ∧ (in_range i (length (Array.v_ a)) →
       ∃ y, Array.v_ a !! Z.to_nat i = Some y
            ∧ Array.at_ a i = Ok y
            ∧ Array.get a i = Ok y
            ∧ Array.at_put a i x
              = Ok (mkArray (<[Z.to_nat i := x]> (Array.v_ a)))
            ∧ Array.put a i x
              = Ok (mkArray (<[Z.to_nat i := x]> (Array.v_ a))))
  ∧ (0 ≤ k → ¬ in_range i (Z.to_nat k) →
       variable (mkDim k) val i x = Fault out_of_range).
Proof.
  split; [|split].
  - intros Hi. split; [|by apply at_put_out_of_range].
    unfold Array.at_.
    destruct (out_of_range_lookup a i Hi) as [->|[-> ->]]; done.
  - intros Hi. destruct (in_range_lookup a i Hi) as (y & Hy & H0).
    exists y. unfold Array.at_, Array.get, Array.at_put, Array.put.
    by rewrite H0, Hy.
  - intros Hk Hi. unfold variable. simpl. rewrite new_Ok by done. simpl.
    rewrite at_put_out_of_range; [done|]. simpl.
    by rewrite length_replicate.
Qed.

End Indexing.

(** ** The dimension of a dual number *)

Section Dimension.
Context {Dtype : Type} `{!Scalar Dtype, !Exp Dtype, !Log Dtype, !Sqrt Dtype}.
Import Jet.

Implicit Types (f g j : Jet Dtype) (s val d : Dtype) (i k : Z).

Lemma keeps_dimension_Ok f j :
  dimension j = dimension f → keeps_dimension f (Ok j).
Proof. intros Hj. by exists j. Qed.

Lemma keeps_dimension_wf f r :
  wf f → keeps_dimension f r → ∃ j, r = Ok j ∧ wf j.
Proof.
  intros Hf (j & -> & Hj). exists j. split; [done|].
  by apply (wf_same_dimension f j).
Qed.

Lemma dimension_fmap (h : Dtype → Dtype) val f :
  dimension (mkJet val (Array.mkArray (h <$> gradient f))) = dimension f.
Proof. unfold dimension, gradient. simpl. apply length_fmap. Qed.

Lemma dimension_zip_with (h : Dtype → Dtype → Dtype) val f g :
  dimension f = dimension g →
  dimension (mkJet val (Array.mkArray (zip_with h (gradient f) (gradient g))))
  = dimension f.
Proof.
  unfold dimension, gradient. simpl. intros Hfg.
  rewrite length_zip_with. lia.
Qed.

Lemma new_eq k :
  0 ≤ k →
  new (mkDim k)
  = Ok (mkJet s_zero (Array.mkArray (replicate (Z.to_nat k) s_zero))).
Proof. intros Hk. unfold new. simpl. by rewrite new_Ok. Qed.

Lemma constant_eq k val :
  0 ≤ k →
  constant (mkDim k) val
  = Ok (mkJet val (Array.mkArray (replicate (Z.to_nat k) s_zero))).
Proof. intros Hk. unfold constant. simpl. by rewrite new_Ok. Qed.

Lemma built_with_Ok k j :
  0 ≤ k ≤ INT_MAX → dimension j = Z.to_nat k → built_with k (Ok j).
Proof.
  intros Hk Hj. exists j. split; [done|].
  unfold wf, Array.wf. fold (gradient j). fold (dimension j).
  rewrite Hj. lia.
Qed.

(** C9, as the code has it.  Each constructor given the dimension [k]
    builds a dual number whose gradient has [k] components; the
    negation, every operator with a scalar, [exp], [log], [sqrt], and,
    for a second operand of the same dimension, [+], [-], [*], [/],
    [max] and the compound assignments return a dual number of the
    dimension of their operand.  The dimension of an object is not fixed
    for its lifetime: copy assignment gives it the dimension of the
    operand, and an assignment to the public field [grad_] the length of
    the buffer assigned. *)
Theorem dimension_is_invariant f g s k val i d :
  (0 ≤ k ≤ INT_MAX →
     built_with k (new (mkDim k))
     ∧ built_with k (constant (mkDim k) val)
     ∧ (in_range i (Z.to_nat k) →
          built_with k (variable (mkDim k) val i d)))
  ∧ (dimension (copy_assign f g) = dimension g
     ∧ ∀ a, dimension (with_grad f a) = length (Array.v_ a))
  ∧ (wf f →
       keeps_dimension f (neg f)
       ∧ keeps_dimension f (add_scalar f s)
       ∧ keeps_dimension f (scalar_add s f)
       ∧ keeps_dimension f (sub_scalar f s)
       ∧ keeps_dimension f (scalar_sub s f)
       ∧ keeps_dimension f (mul_scalar f s)
       ∧ keeps_dimension f (scalar_mul s f)
       ∧ keeps_dimension f (div_scalar f s)
       ∧ keeps_dimension f (scalar_div s f)
       ∧ keeps_dimension f (add_assign_scalar f s)
       ∧ keeps_dimension f (sub_assign_scalar f s)
       ∧ keeps_dimension f (mul_assign_scalar f s)
       ∧ keeps_dimension f (div_assign_scalar f s)
       ∧ keeps_dimension f (exp f)
       ∧ keeps_dimension f (log f)
       ∧ keeps_dimension f (sqrt f))
  ∧ (wf f → dimension f = dimension g →
       keeps_dimension f (add f g)
       ∧ keeps_dimension f (sub f g)
       ∧ keeps_dimension f (mul f g)
       ∧ keeps_dimension f (div f g)
       ∧ keeps_dimension f (add_assign f g)
       ∧ keeps_dimension f (sub_assign f g)
       ∧ keeps_dimension f (mul_assign f g)
       ∧ keeps_dimension f (div_assign f g)
       ∧ keeps_dimension f (max f g)).
Proof.
  split; [|split; [|split]].
  - intros Hk. split; [|split].
    + rewrite new_eq by lia. apply built_with_Ok; [done|].
      unfold dimension, gradient. simpl. apply length_replicate.
    + rewrite constant_eq by lia. apply built_with_Ok; [done|].
      unfold dimension, gradient. simpl. apply length_replicate.
    + intros Hi. rewrite variable_eq by (done || lia).
      apply built_with_Ok; [done|]. unfold dimension, gradient. simpl.
      by rewrite length_insert, length_replicate.
  - split; [reflexivity|]. intros a. reflexivity.
  - intros Hf.
    unfold add_assign_scalar, sub_assign_scalar, mul_assign_scalar,
      div_assign_scalar.
    rewrite neg_eq, scalar_sub_eq, mul_scalar_eq, scalar_mul_eq,
      div_scalar_eq, scalar_div_eq, exp_eq, log_eq, sqrt_eq by done.
    unfold add_scalar, scalar_add, sub_scalar.
    repeat split;
      first [ by apply keeps_dimension_Ok, dimension_fmap
            | by apply keeps_dimension_Ok ].
  - intros Hf Hfg.
    unfold add_assign, sub_assign, mul_assign, div_assign, max.
    rewrite add_eq, sub_eq, mul_eq, div_eq, lt_eq by done. simpl.
    repeat split;
      first [ by apply keeps_dimension_Ok, dimension_zip_with
            | by destruct (s_lt _ _); apply keeps_dimension_Ok ].
Qed.

End Dimension.


(** ** The theorems at the concrete dual numbers *)

Section Witnesses.
Import Jet Scenario.

Ltac int_sized := unfold wf, Array.wf, INT_MAX; simpl; lia.

Lemma wf_x : wf x.
Proof. int_sized. Defined.

Lemma wf_y : wf y.
Proof. int_sized. Defined.

Lemma wf_w : wf w.
Proof. int_sized. Defined.

Lemma wf_u : wf u.
Proof. int_sized. Defined.

Lemma dimension_x_w : dimension x ≠ dimension w.
Proof. discriminate. Defined.

Lemma mul_product_rule_witness :
  wf x ∧ dimension x = dimension y
  ∧ ∃ r, mul x y = Ok r
         ∧ val_ r = 12%float
         ∧ gradient r !! 0%nat = Some 4%float
         ∧ gradient r !! 1%nat = Some 3%float.
Proof.
  split; [exact wf_x|]. split; [reflexivity|].
  destruct (mul_product_rule x y wf_x eq_refl) as (r & Hr & Hv & _ & Hg).
  exists r. split; [exact Hr|]. split; [exact Hv|]. split.
  - exact (Hg 0%nat 1%float 0%float eq_refl eq_refl).
  - exact (Hg 1%nat 0%float 1%float eq_refl eq_refl).
Defined.

Lemma div_quotient_rule_witness :
  wf x ∧ dimension x = dimension y
  ∧ ∃ r, div x y = Ok r
         ∧ val_ r = 0.75%float
         ∧ gradient r !! 0%nat = Some 0.25%float
         ∧ gradient r !! 1%nat = Some (-0.1875)%float.
Proof.
  split; [exact wf_x|]. split; [reflexivity|].
  destruct (div_quotient_rule x y wf_x eq_refl) as (r & Hr & Hv & _ & Hg).
  exists r. split; [exact Hr|]. split; [exact Hv|]. split.
  - exact (Hg 0%nat 1%float 0%float eq_refl eq_refl).
  - exact (Hg 1%nat 0%float 1%float eq_refl eq_refl).
Defined.

Lemma elementary_chain_rule_witness :
  wf u
  ∧ (∃ r, exp u = Ok r ∧ val_ r = Rtrigo_def.exp 4
          ∧ gradient r !! 0%nat = Some (Rtrigo_def.exp 4 * 1)%R)
  ∧ (∃ r, log u = Ok r ∧ val_ r = ln 4
          ∧ gradient r !! 0%nat = Some (1 / 4)%R)
  ∧ (∃ r, sqrt u = Ok r ∧ val_ r = R_sqrt.sqrt 4
          ∧ gradient r !! 0%nat = Some (1 / (2 * R_sqrt.sqrt 4))%R).
Proof.
  split; [exact wf_u|].
  destruct (elementary_chain_rule u wf_u)
    as ((r1 & Hr1 & Hv1 & _ & Hg1) & (r2 & Hr2 & Hv2 & _ & Hg2)
        & (r3 & Hr3 & Hv3 & _ & Hg3)).
  split; [|split].
  - exists r1. split; [exact Hr1|]. split; [exact Hv1|].
    exact (Hg1 0%nat 1%R eq_refl).
  - exists r2. split; [exact Hr2|]. split; [exact Hv2|].
    exact (Hg2 0%nat 1%R eq_refl).
  - exists r3. split; [exact Hr3|]. split; [exact Hv3|].
    exact (Hg3 0%nat 1%R eq_refl).
Defined.

Lemma binary_operators_check_shape_witness :
  (wf x ∧ wf w ∧ dimension x ≠ dimension w
   ∧ add x w = Fault CheckFailure ∧ sub x w = Fault CheckFailure
   ∧ mul x w = Fault CheckFailure ∧ div x w = Fault CheckFailure)
  ∧ (wf x ∧ wf y ∧ dimension x = dimension y
     ∧ (∃ r, add x y = Ok r) ∧ (∃ r, sub x y = Ok r)
     ∧ (∃ r, mul x y = Ok r) ∧ (∃ r, div x y = Ok r)).
Proof.
  split.
  - split; [exact wf_x|]. split; [exact wf_w|].
    split; [exact dimension_x_w|].
    exact (proj1 (binary_operators_check_shape x w wf_x wf_w)
             dimension_x_w).
  - split; [exact wf_x|]. split; [exact wf_y|]. split; [reflexivity|].
    exact (proj2 (binary_operators_check_shape x y wf_x wf_y) eq_refl).
Defined.

Lemma comparisons_check_shape_but_gt_witness :
  (dimension x ≠ dimension w
   ∧ eq x w = Fault CheckFailure ∧ ne x w = Fault CheckFailure
   ∧ lt x w = Fault CheckFailure ∧ le x w = Fault CheckFailure
   ∧ ge x w = Fault CheckFailure
   ∧ gt x w = Ok false ∧ gt w x = Ok true)
  ∧ (dimension x = dimension y
     ∧ eq x y = Ok false ∧ ne x y = Ok true ∧ lt x y = Ok true
     ∧ le x y = Ok true ∧ ge x y = Ok false ∧ gt x y = Ok false).
Proof.
  split.
  - split; [exact dimension_x_w|].
    destruct (comparisons_check_shape_but_gt x w) as (Hne & _ & Hgt).
    destruct (Hne dimension_x_w) as (H1 & H2 & H3 & H4 & H5).
    repeat (split; [assumption|]).
    exact (proj2 (proj2 (comparisons_check_shape_but_gt w x))).
  - split; [reflexivity|].
    destruct (comparisons_check_shape_but_gt x y) as (_ & Heq & Hgt).
    destruct (Heq eq_refl) as (H1 & H2 & H3 & H4 & H5).
    repeat (split; [assumption|]). exact Hgt.
Defined.

Lemma not_in_range_2_2 : ¬ in_range 2 2.
Proof. unfold in_range. lia. Defined.

Lemma in_range_1_2 : in_range 1 2.
Proof. unfold in_range. lia. Defined.

(** C7 as stated fails on [operator[]]: reading or writing one past the
    end of a buffer of two elements, or before its start, throws no
    [std::out_of_range]; the access is made unchecked.  It fails, too,
    on the constructor of a variable given a negative dimension: the
    buffer cannot be built, and the exception is that of the
    [std::vector] constructor, whatever the index. *)
Lemma subscript_is_unchecked :
  Array.get buf 2 = Fault UndefinedBehavior
  ∧ Array.put buf 2 0%float = Fault UndefinedBehavior
  ∧ Array.get buf (-1) = Fault UndefinedBehavior
  ∧ Array.get buf 2 ≠ Fault out_of_range
  ∧ Array.put buf 2 0%float ≠ Fault out_of_range
  ∧ variable (mkDim (-1)) 3%float 0 1%float = Fault bad_vector_size
  ∧ variable (mkDim (-1)) 3%float 0 1%float ≠ Fault out_of_range.
Proof. repeat split; (reflexivity || discriminate). Qed.

Lemma at_is_bounds_checked_witness :
  (¬ in_range 2 (length (Array.v_ buf))
   ∧ Array.at_ buf 2 = Fault out_of_range
   ∧ Array.at_put buf 2 0%float = Fault out_of_range)
  ∧ (in_range 1 (length (Array.v_ buf))
     ∧ Array.at_ buf 1 = Ok 2%float
     ∧ Array.get buf 1 = Ok 2%float
     ∧ Array.at_put buf 1 0%float = Ok (Array.mkArray [1%float; 0%float])
     ∧ Array.put buf 1 0%float = Ok (Array.mkArray [1%float; 0%float]))
  ∧ (0 ≤ 2 ∧ ¬ in_range 2 (Z.to_nat 2)
     ∧ variable (mkDim 2) 3%float 2 1%float = Fault out_of_range).
Proof.
  pose proof (at_is_bounds_checked buf 2 3%float 2 0%float)
    as (Hout & _ & _).
  pose proof (at_is_bounds_checked buf 2 3%float 1 0%float)
    as (_ & Hin & _).
  pose proof (at_is_bounds_checked buf 2 3%float 2 1%float)
    as (_ & _ & Hvar).
  split; [|split].
  - split; [exact not_in_range_2_2|]. exact (Hout not_in_range_2_2).
  - split; [exact in_range_1_2|].
    destruct (Hin in_range_1_2) as (y0 & Hy & H1 & H2 & H3 & H4).
    injection Hy as <-. repeat split; assumption.
  - split; [lia|]. split; [exact not_in_range_2_2|].
    apply Hvar; [lia | exact not_in_range_2_2].
Defined.

Lemma max_selects_operand_witness :
  (dimension f = dimension g ∧ s_lt (val_ f) (val_ g) = true
   ∧ max f g = Ok g)
  ∧ (dimension g = dimension f ∧ s_lt (val_ g) (val_ f) = false
     ∧ max g f = Ok g)
  ∧ (dimension f = dimension f' ∧ val_ f = val_ f' ∧ max f f' = Ok f).
Proof.
  split; [|split].
  - split; [reflexivity|]. split; [reflexivity|].
    exact (proj1 (max_selects_operand f g eq_refl) eq_refl).
  - split; [reflexivity|]. split; [reflexivity|].
    exact (proj1 (proj2 (max_selects_operand g f eq_refl)) eq_refl).
  - split; [reflexivity|]. split; [reflexivity|].
    exact (proj1 (proj2 (proj2 (max_selects_operand f f' eq_refl))) eq_refl).
Defined.

Lemma max_checks_shape_witness :
  dimension x ≠ dimension w ∧ max x w = Fault CheckFailure.
Proof.
  split; [exact dimension_x_w|].
  exact (max_checks_shape x w dimension_x_w).
Defined.

Lemma in_range_0_1 : in_range 0 1.
Proof. unfold in_range. lia. Defined.

(** C9 as stated fails on assignment: a dual number of two variables
    that is assigned one of one variable, whole or by its public field
    [grad_], has dimension one from then on. *)
Lemma assignment_changes_dimension :
  dimension x = 2%nat ∧ dimension w = 1%nat
  ∧ dimension (copy_assign x w) = 1%nat
  ∧ dimension (with_grad x (grad_ w)) = 1%nat.
Proof. repeat split. Qed.

Lemma dimension_is_invariant_witness :
  (0 ≤ 1 ≤ INT_MAX
   ∧ built_with 1 (new (Dtype:=R) (mkDim 1))
   ∧ built_with 1 (constant (mkDim 1) 4%R)
   ∧ built_with 1 (variable (mkDim 1) 4%R 0 1%R))
  ∧ dimension (copy_assign u xr) = 2%nat
  ∧ (wf u ∧ keeps_dimension u (neg u)
     ∧ keeps_dimension u (scalar_div 2%R u)
     ∧ keeps_dimension u (sqrt u))
  ∧ (dimension u = dimension v
     ∧ keeps_dimension u (mul u v) ∧ keeps_dimension u (max u v)).
Proof.
  pose proof (dimension_is_invariant u v 2%R 1 4%R 0 1%R)
    as (Hnew & _ & Hone & Htwo).
  pose proof (dimension_is_invariant u xr 2%R 1 4%R 0 1%R)
    as (_ & (Hcopy & _) & _ & _).
  assert (Hk : 0 ≤ 1 ≤ INT_MAX) by (unfold INT_MAX; lia).
  split; [|split; [|split]].
  - split; [exact Hk|]. destruct (Hnew Hk) as (H1 & H2 & H3).
    split; [exact H1|]. split; [exact H2|]. exact (H3 in_range_0_1).
  - exact Hcopy.
  - split; [exact wf_u|]. pose proof (Hone wf_u) as Hops.
    split; [exact (proj1 Hops)|]. split.
    + exact (proj1 (proj2 (proj2 (proj2 (proj2 (proj2 (proj2 (proj2
               (proj2 Hops))))))))).
    + exact (proj2 (proj2 (proj2 (proj2 (proj2 (proj2 (proj2 (proj2
               (proj2 (proj2 (proj2 (proj2 (proj2 (proj2
               (proj2 Hops))))))))))))))).
  - split; [reflexivity|]. pose proof (Htwo wf_u eq_refl) as Hops.
    split.
    + exact (proj1 (proj2 (proj2 Hops))).
    + exact (proj2 (proj2 (proj2 (proj2 (proj2 (proj2 (proj2
               (proj2 Hops)))))))).
Defined.

End Witnesses.

(** ** The scenarios of the specification, run *)

Section Scenarios.
Import Jet Scenario.

(** [x * y] for [x = (3, [1, 0])] and [y = (4, [0, 1])]. *)
Example product_of_variables :
  mul x y = Ok (mkJet 12%float (Array.mkArray [4%float; 3%float])).
Proof. vm_compute. reflexivity. Qed.

(** [x = variable(dim = 1, value = 4, index = 0)], [z = sqrt(x)]: value
    [2], gradient [[0.25]]. *)
Example sqrt_of_variable :
  (do j <- variable (mkDim 1) 4%float 0 1%float; sqrt j)
  = Ok (mkJet 2%float (Array.mkArray [0.25%float])).
Proof. vm_compute. reflexivity. Qed.

(** [max(f, g)] for [f = (3, [1, 0])] and [g = (5, [0, 1])]. *)
Example max_of_f_g : max f g = Ok g.
Proof. vm_compute. reflexivity. Qed.

(** Two dual numbers of equal value and different gradients compare
    equal. *)
Example equal_values_compare_equal : eq f f' = Ok true.
Proof. vm_compute. reflexivity. Qed.

(** A dual number of two variables does not combine with one of one. *)
Example mismatch_aborts :
  add x w = Fault CheckFailure ∧ gt x w = Ok false.
Proof. split; vm_compute; reflexivity. Qed.

(** An index that is not one of the two variables. *)
Example variable_index_out_of_range :
  variable (mkDim 2) 3%float 2 1%float = Fault out_of_range
  ∧ variable (mkDim 2) 3%float (-1) 1%float = Fault out_of_range.
Proof. split; vm_compute; reflexivity. Qed.

(** [z = x * y + exp(x)] over the reals: value [12 + e^3], gradient
    [[4 + e^3, 3]]. *)
Example product_plus_exp :
  (do p <- mul xr yr; do e <- exp xr; add p e)
  = Ok (mkJet (12 + Rtrigo_def.exp 3)%R
          (Array.mkArray [(4 + Rtrigo_def.exp 3)%R; 3%R])).
Proof.
  assert (Hx : wf xr) by (unfold wf, Array.wf, INT_MAX; simpl; lia).
  rewrite (mul_eq xr yr Hx eq_refl), (exp_eq xr Hx). simpl.
  rewrite add_eq; [|unfold wf, Array.wf, INT_MAX; simpl; lia|reflexivity].
  simpl. unfold s_exp, Exp_R.
  f_equal. f_equal; [lra|]. f_equal. f_equal; [lra|]. f_equal. lra.
Qed.

End Scenarios.


(** * Further properties of the operators *)

(** ** Linear operators and operators with a scalar *)

Section Linear.
Context {Dtype : Type} `{!Scalar Dtype}.
Import Jet.

Implicit Types (f g r : Jet Dtype) (s x y gx gy : Dtype) (i : nat).

(** X1.  The sum of two dual numbers of equal dimension has the sum of
    the values and, at every component, the sum of the gradients. *)
Theorem add_is_linear f g :
  wf f → dimension f = dimension g →
  ∃ r, add f g = Ok r
       ∧ val_ r = s_add (val_ f) (val_ g)
       ∧ dimension r = dimension f
       ∧ ∀ i gx gy,
           gradient f !! i = Some gx → gradient g !! i = Some gy →
           gradient r !! i = Some (s_add gx gy).
Proof.
  intros Hf Hfg. eexists. split; [by apply add_eq|]. simpl.
  split; [done|]. split; [by apply dimension_zip_with|].
  intros i gx gy Hgx Hgy. unfold gradient in *. simpl.
  by rewrite lookup_zip_with, Hgx, Hgy.
Qed.

(** X2.  The difference of two dual numbers of equal dimension has the
    difference of the values and, at every component, the difference of
    the gradients. *)
Theorem sub_is_linear f g :
  wf f → dimension f = dimension g →
  ∃ r, sub f g = Ok r
       ∧ val_ r = s_sub (val_ f) (val_ g)
       ∧ dimension r = dimension f
       ∧ ∀ i gx gy,
           gradient f !! i = Some gx → gradient g !! i = Some gy →
           gradient r !! i = Some (s_sub gx gy).
Proof.
  intros Hf Hfg. eexists. split; [by apply sub_eq|]. simpl.
  split; [done|]. split; [by apply dimension_zip_with|].
  intros i gx gy Hgx Hgy. unfold gradient in *. simpl.
  by rewrite lookup_zip_with, Hgx, Hgy.
Qed.

(** X3.  The negation of a dual number negates its value and every
    component of its gradient. *)
Theorem neg_negates f :
  wf f →
  ∃ r, neg f = Ok r
       ∧ val_ r = s_neg (val_ f)
       ∧ dimension r = dimension f
       ∧ ∀ i gx, gradient f !! i = Some gx →
           gradient r !! i = Some (s_neg gx).
Proof.
  intros Hf. eexists. split; [by apply neg_eq|]. simpl.
  split; [done|]. split; [by apply dimension_fmap|].
  intros i gx Hgx. unfold gradient in *. simpl.
  by rewrite list_lookup_fmap, Hgx.
Qed.

(** X4.  Where the negation of the scalar type is an involution, so is
    that of the dual numbers: negating twice gives the dual number
    back, value and gradient. *)
Theorem neg_is_involutive f :
  wf f → (∀ a : Dtype, s_neg (s_neg a) = a) →
  (do r <- neg f; neg r) = Ok f.
Proof.
  intros Hf Hinv. rewrite (neg_eq f Hf). simpl.
  rewrite neg_eq by (by apply wf_fmap). simpl.
  destruct f as [x [l]]. unfold gradient. simpl. rewrite Hinv.
  do 3 f_equal. rewrite <- list_fmap_compose.
  rewrite <- (list_fmap_id l) at 2. apply list_fmap_ext.
  intros i a _. simpl. apply Hinv.
Qed.

(** X5.  Scaling.  [f * s] and [s * f] have value [x * s] and gradient
    [gx * s]; [f / s] has value [x / s] and gradient [gx / s], at every
    component; the two products are the same dual number. *)
Theorem scaling_by_scalar f s :
  wf f →
  (∃ r, mul_scalar f s = Ok r ∧ scalar_mul s f = Ok r
        ∧ val_ r = s_mul (val_ f) s
        ∧ dimension r = dimension f
        ∧ ∀ i gx, gradient f !! i = Some gx →
            gradient r !! i = Some (s_mul gx s))
  ∧ (∃ r, div_scalar f s = Ok r
        ∧ val_ r = s_div (val_ f) s
        ∧ dimension r = dimension f
        ∧ ∀ i gx, gradient f !! i = Some gx →
            gradient r !! i = Some (s_div gx s)).
Proof.
  intros Hf. split.
  - eexists. split; [by apply mul_scalar_eq|].
    split; [by apply scalar_mul_eq|]. simpl. split; [done|].
    split; [by apply dimension_fmap|].
    intros i gx Hgx. unfold gradient in *. simpl.
    by rewrite list_lookup_fmap, Hgx.
  - eexists. split; [by apply div_scalar_eq|]. simpl. split; [done|].
    split; [by apply dimension_fmap|].
    intros i gx Hgx. unfold gradient in *. simpl.
    by rewrite list_lookup_fmap, Hgx.
Qed.

(** X6.  [s - f] has value [s - x] and the negated gradient. *)
Theorem scalar_minus_jet s f :
  wf f →
  ∃ r, scalar_sub s f = Ok r
       ∧ val_ r = s_sub s (val_ f)
       ∧ dimension r = dimension f
       ∧ ∀ i gx, gradient f !! i = Some gx →
           gradient r !! i = Some (s_neg gx).
Proof.
  intros Hf. eexists. split; [by apply scalar_sub_eq|]. simpl.
  split; [done|]. split; [by apply dimension_fmap|].
  intros i gx Hgx. unfold gradient in *. simpl.
  by rewrite list_lookup_fmap, Hgx.
Qed.

(** X7.  Reciprocal rule.  [s / f] has value [s / x] and, at every
    component, the gradient [(gx * -s) / (x * x)]. *)
Theorem scalar_over_jet s f :
  wf f →
  ∃ r, scalar_div s f = Ok r
       ∧ val_ r = s_div s (val_ f)
       ∧ dimension r = dimension f
       ∧ ∀ i gx, gradient f !! i = Some gx →
           gradient r !! i
           = Some (s_div (s_mul gx (s_neg s)) (s_mul (val_ f) (val_ f))).
Proof.
  intros Hf. eexists. split; [by apply scalar_div_eq|]. simpl.
  split; [done|]. split; [by apply dimension_fmap|].
  intros i gx Hgx. unfold gradient in *. simpl.
  by rewrite list_lookup_fmap, Hgx.
Qed.

(** X8.  Addition and multiplication of dual numbers are commutative
    where the addition of the scalar type is (its product is). *)
Theorem add_mul_commutative f g :
  wf f → dimension f = dimension g →
  (∀ a b : Dtype, s_add a b = s_add b a) →
  add f g = add g f ∧ mul f g = mul g f.
Proof.
  intros Hf Hfg Hcomm. pose proof (wf_same_dimension f g Hf Hfg) as Hg.
  rewrite (add_eq f g), (add_eq g f), (mul_eq f g), (mul_eq g f) by done.
  split.
  - rewrite (Hcomm (val_ f)). do 3 f_equal.
    rewrite <- zip_with_flip. apply zip_with_ext; [|done..].
    intros a b. apply Hcomm.
  - rewrite (s_mul_comm (val_ f)). do 3 f_equal.
    rewrite <- zip_with_flip. apply zip_with_ext; [|done..].
    intros a b. apply Hcomm.
Qed.

(** X9.  The comparisons ignore the gradient: they give the same outcome
    on dual numbers of the same values and dimensions. *)
Theorem comparisons_ignore_gradient f f' g g' :
  val_ f = val_ f' → val_ g = val_ g' →
  dimension f = dimension f' → dimension g = dimension g' →
  eq f g = eq f' g' ∧ ne f g = ne f' g' ∧ lt f g = lt f' g'
  ∧ le f g = le f' g' ∧ gt f g = gt f' g' ∧ ge f g = ge f' g'.
Proof.
  intros Hf Hg Hdf Hdg.
  unfold eq, ne, lt, le, gt, ge, has_same_shape, Array.has_same_shape.
  unfold dimension, gradient in *. by rewrite Hf, Hg, Hdf, Hdg.
Qed.

End Linear.

(** ** Construction and indexed access *)

Section Construction.
Context {Dtype : Type} `{!Scalar Dtype}.
Import Jet.

Local Abbreviation ArrayWithOp := (Array.ArrayWithOp Dtype).
Local Abbreviation mkArray := (@Array.mkArray Dtype).
Implicit Types (a : ArrayWithOp) (f self j : Jet Dtype) (i k : Z)
  (val d x : Dtype).

(** X10.  The constructor of a variable, given a dimension [k] and an
    index in range, builds the dual number of value [val] whose gradient
    has [k] components, [derivative] at the index and zero elsewhere. *)
Theorem variable_is_basis_vector k val i d :
  0 ≤ k → in_range i (Z.to_nat k) →
  ∃ j, variable (mkDim k) val i d = Ok j
       ∧ val_ j = val
       ∧ Z.of_nat (dimension j) = k
       ∧ ∀ m : nat, Z.of_nat m < k →
           gradient j !! m
           = Some (if decide (Z.of_nat m = i) then d else s_zero).
Proof.
  intros Hk Hi. eexists. split; [by apply variable_eq|]. simpl.
  split; [done|]. unfold dimension, gradient. simpl. split.
  - rewrite length_insert, length_replicate. lia.
  - intros m Hm. destruct Hi as [H0 Hi]. case_decide as Hmi.
    + subst i. rewrite Nat2Z.id.
      apply list_lookup_insert_eq. rewrite length_replicate. lia.
    + rewrite list_lookup_insert_ne by lia.
      apply lookup_replicate_2. lia.
Qed.

(** X13.  The constructors of a zero and of a constant, given a dimension
    [k] that is a non-negative [int], build a dual number of value zero,
    respectively [val], whose gradient is zero at every component and
    whose [dim()] is [k] again. *)
Theorem constant_has_zero_gradient k val :
  0 ≤ k ≤ INT_MAX →
  (∃ j, new (mkDim k) = Ok j ∧ val_ j = s_zero ∧ dim j = mkDim k
        ∧ ∀ (m : nat) x, gradient j !! m = Some x → x = s_zero)
  ∧ (∃ j, constant (mkDim k) val = Ok j ∧ val_ j = val ∧ dim j = mkDim k
        ∧ ∀ (m : nat) x, gradient j !! m = Some x → x = s_zero).
Proof.
  intros Hk.
  assert (Hdim : ∀ v, dim (mkJet v (mkArray (replicate (Z.to_nat k) s_zero)))
                      = mkDim k).
  { intros v. unfold dim. simpl. rewrite n_wf.
    - simpl. rewrite length_replicate. f_equal. lia.
    - unfold Array.wf. simpl. rewrite length_replicate. lia. }
  split.
  - eexists. split; [apply new_eq; lia|]. simpl. split; [done|].
    split; [apply Hdim|]. unfold gradient. simpl.
    intros m x Hx. by apply lookup_replicate in Hx as [-> _].
  - eexists. split; [apply constant_eq; lia|]. simpl. split; [done|].
    split; [apply Hdim|]. unfold gradient. simpl.
    intros m x Hx. by apply lookup_replicate in Hx as [-> _].
Qed.

(** X14.  A write through [at] that returns is read back through [at]
    (and through [operator[]]) at its index, leaves every other position
    as it was and keeps the length of the buffer. *)
Theorem at_put_then_at a a' i x :
  Array.at_put a i x = Ok a' →
  Array.at_ a' i = Ok x
  ∧ Array.get a' i = Ok x
  ∧ (∀ k, k ≠ i → Array.at_ a' k = Array.at_ a k)
  ∧ Array.n a' = Array.n a
  ∧ Array.has_same_shape a' a = true.
Proof.
  unfold Array.at_put, Array.at_, Array.get.
  destruct (Z.leb_spec 0 i) as [H0|H0]; [|discriminate].
  destruct (Array.v_ a !! Z.to_nat i) as [y|] eqn:Hy; [|discriminate].
  intros [= <-]. simpl. apply lookup_lt_Some in Hy.
  rewrite list_lookup_insert_eq by done. split; [done|]. split; [done|].
  split; [|split].
  - intros k Hk. destruct (0 <=? k) eqn:Hk0; [|done].
    apply Z.leb_le in Hk0. by rewrite list_lookup_insert_ne by lia.
  - unfold Array.n. simpl. by rewrite length_insert.
  - unfold Array.has_same_shape. simpl. rewrite length_insert.
    apply Nat.eqb_refl.
Qed.

End Construction.

(** ** The text of a dual number *)

Section Text.
Context {Dtype : Type} `{!Show Dtype}.
Import Jet.

Implicit Types (f : Jet Dtype) (l : list Dtype) (s t u acc sep : string).






End Text.

(** ** The further properties at the concrete dual numbers *)

Section FurtherWitnesses.
Import Jet Scenario.

Ltac int_sized := unfold wf, Array.wf, INT_MAX; simpl; lia.

Lemma wf_xr : wf xr.
Proof. int_sized. Defined.

Lemma add_is_linear_witness :
  wf x ∧ dimension x = dimension y
  ∧ ∃ r, add x y = Ok r ∧ val_ r = 7%float
         ∧ gradient r !! 0%nat = Some 1%float
         ∧ gradient r !! 1%nat = Some 1%float.
Proof.
  split; [exact wf_x|]. split; [reflexivity|].
  destruct (add_is_linear x y wf_x eq_refl) as (r & Hr & Hv & _ & Hg).
  exists r. split; [exact Hr|]. split; [exact Hv|]. split.
  - exact (Hg 0%nat 1%float 0%float eq_refl eq_refl).
  - exact (Hg 1%nat 0%float 1%float eq_refl eq_refl).
Defined.

Lemma sub_is_linear_witness :
  wf x ∧ dimension x = dimension y
  ∧ ∃ r, sub x y = Ok r ∧ val_ r = (-1)%float
         ∧ gradient r !! 0%nat = Some 1%float
         ∧ gradient r !! 1%nat = Some (-1)%float.
Proof.
  split; [exact wf_x|]. split; [reflexivity|].
  destruct (sub_is_linear x y wf_x eq_refl) as (r & Hr & Hv & _ & Hg).
  exists r. split; [exact Hr|]. split; [exact Hv|]. split.
  - exact (Hg 0%nat 1%float 0%float eq_refl eq_refl).
  - exact (Hg 1%nat 0%float 1%float eq_refl eq_refl).
Defined.

Lemma neg_negates_witness :
  wf x
  ∧ ∃ r, neg x = Ok r ∧ val_ r = (-3)%float ∧ dimension r = 2%nat
         ∧ gradient r !! 0%nat = Some (-1)%float.
Proof.
  split; [exact wf_x|].
  destruct (neg_negates x wf_x) as (r & Hr & Hv & Hd & Hg).
  exists r. split; [exact Hr|]. split; [exact Hv|]. split; [exact Hd|].
  exact (Hg 0%nat 1%float eq_refl).
Defined.

Lemma neg_is_involutive_witness :
  wf xr ∧ (∀ a : R, (- - a)%R = a) ∧ (do r <- neg xr; neg r) = Ok xr.
Proof.
  split; [exact wf_xr|]. split; [exact Ropp_involutive|].
  exact (neg_is_involutive xr wf_xr Ropp_involutive).
Defined.

Lemma scaling_by_scalar_witness :
  wf x
  ∧ (∃ r, mul_scalar x 2%float = Ok r ∧ scalar_mul 2%float x = Ok r
          ∧ val_ r = 6%float ∧ gradient r !! 0%nat = Some 2%float)
  ∧ (∃ r, div_scalar x 2%float = Ok r
          ∧ val_ r = 1.5%float ∧ gradient r !! 0%nat = Some 0.5%float).
Proof.
  split; [exact wf_x|].
  destruct (scaling_by_scalar x 2%float wf_x)
    as ((r1 & Hm & Hs & Hv1 & _ & Hg1) & (r2 & Hd & Hv2 & _ & Hg2)).
  split.
  - exists r1. split; [exact Hm|]. split; [exact Hs|].
    split; [exact Hv1|]. exact (Hg1 0%nat 1%float eq_refl).
  - exists r2. split; [exact Hd|]. split; [exact Hv2|].
    exact (Hg2 0%nat 1%float eq_refl).
Defined.

Lemma scalar_minus_jet_witness :
  wf x
  ∧ ∃ r, scalar_sub 10%float x = Ok r ∧ val_ r = 7%float
         ∧ gradient r !! 0%nat = Some (-1)%float.
Proof.
  split; [exact wf_x|].
  destruct (scalar_minus_jet 10%float x wf_x) as (r & Hr & Hv & _ & Hg).
  exists r. split; [exact Hr|]. split; [exact Hv|].
  exact (Hg 0%nat 1%float eq_refl).
Defined.

Lemma scalar_over_jet_witness :
  wf y
  ∧ ∃ r, scalar_div 2%float y = Ok r ∧ val_ r = 0.5%float
         ∧ gradient r !! 1%nat = Some (-0.125)%float.
Proof.
  split; [exact wf_y|].
  destruct (scalar_over_jet 2%float y wf_y) as (r & Hr & Hv & _ & Hg).
  exists r. split; [exact Hr|]. split; [exact Hv|].
  exact (Hg 1%nat 1%float eq_refl).
Defined.

Lemma add_mul_commutative_witness :
  wf xr ∧ dimension xr = dimension yr
  ∧ (∀ a b : R, (a + b)%R = (b + a)%R)
  ∧ add xr yr = add yr xr ∧ mul xr yr = mul yr xr.
Proof.
  split; [exact wf_xr|]. split; [reflexivity|]. split; [exact Rplus_comm|].
  exact (add_mul_commutative xr yr wf_xr eq_refl Rplus_comm).
Defined.

Lemma comparisons_ignore_gradient_witness :
  val_ f = val_ f' ∧ dimension f = dimension f'
  ∧ eq f g = eq f' g ∧ ne f g = ne f' g ∧ lt f g = lt f' g
  ∧ le f g = le f' g ∧ gt f g = gt f' g ∧ ge f g = ge f' g.
Proof.
  split; [reflexivity|]. split; [reflexivity|].
  exact (comparisons_ignore_gradient f f' g g
           eq_refl eq_refl eq_refl eq_refl).
Defined.

Lemma variable_is_basis_vector_witness :
  0 ≤ 2 ∧ in_range 1 (Z.to_nat 2)
  ∧ ∃ j, variable (mkDim 2) 4%float 1 1%float = Ok j
         ∧ val_ j = 4%float ∧ Z.of_nat (dimension j) = 2
         ∧ gradient j !! 0%nat = Some 0%float
         ∧ gradient j !! 1%nat = Some 1%float.
Proof.
  assert (H0 : 0 ≤ 2) by lia. split; [exact H0|].
  split; [exact in_range_1_2|].
  destruct (variable_is_basis_vector 2 4%float 1 1%float H0 in_range_1_2)
    as (j & Hj & Hv & Hd & Hg).
  exists j. split; [exact Hj|]. split; [exact Hv|]. split; [exact Hd|].
  split.
  - apply (Hg 0%nat). lia.
  - apply (Hg 1%nat). lia.
Defined.

Lemma constant_has_zero_gradient_witness :
  0 ≤ 2 ≤ INT_MAX
  ∧ (∃ j, new (Dtype:=float) (mkDim 2) = Ok j ∧ val_ j = 0%float
          ∧ dim j = mkDim 2)
  ∧ (∃ j, constant (mkDim 2) 4%float = Ok j ∧ val_ j = 4%float
          ∧ dim j = mkDim 2).
Proof.
  assert (Hk : 0 ≤ 2 ≤ INT_MAX) by (unfold INT_MAX; lia).
  split; [exact Hk|].
  destruct (constant_has_zero_gradient 2 4%float Hk)
    as ((j1 & H1 & Hv1 & Hd1 & _) & (j2 & H2 & Hv2 & Hd2 & _)).
  split.
  - exists j1. split; [exact H1|]. split; [exact Hv1|]. exact Hd1.
  - exists j2. split; [exact H2|]. split; [exact Hv2|]. exact Hd2.
Defined.

Lemma at_put_then_at_witness :
  Array.at_put buf 1 0%float = Ok (Array.mkArray [1%float; 0%float])
  ∧ Array.at_ (Array.mkArray [1%float; 0%float]) 1 = Ok 0%float
  ∧ Array.at_ (Array.mkArray [1%float; 0%float]) 0 = Array.at_ buf 0
  ∧ Array.n (Array.mkArray [1%float; 0%float]) = Array.n buf.
Proof.
  split; [reflexivity|].
  destruct (at_put_then_at buf (Array.mkArray [1%float; 0%float])
              1 0%float eq_refl) as (Hat & _ & Hother & Hn & _).
  split; [exact Hat|]. split; [|exact Hn].
  apply Hother. lia.
Defined.


End FurtherWitnesses.
